(** * Integer math utilities of the testing-frameworks sample

    A shallow embedding of [samples/hello_testing_frameworks/src/math_utils.cpp]
    (namespace [math_utils]) and the properties of its six functions, and
    of the two functions that [samples/hello_emscripten/src/main.cpp]
    exports.

    Conventions of the embedding.
    - A C++ [int] is a [Z] in the range [INT_MIN .. INT_MAX]; a [long long]
      is a [Z] in the range [LLONG_MIN .. LLONG_MAX].
    - Signed arithmetic is that of a two's-complement machine: every
      operation computes the exact integer result and keeps its low 32
      (respectively 64) bits, see [wrap32] and [wrap64].  (The C++ standard
      leaves signed overflow undefined; wrap-around is the reading under
      which the properties below are phrased.)
    - [operator/] and [operator%] truncate toward zero: [Z.quot], [Z.rem].
      A division has no value when the divisor is 0 or the quotient is not
      an [int], which for [int] operands is the one case [INT_MIN / -1]:
      there the behaviour of the program is undefined (the division
      instruction traps), see [Int.div].
    - [throw std::invalid_argument(msg)] is the outcome [Throw
      (invalid_argument msg)]; a normal [return v] is [Return v]; a call
      that runs into undefined behaviour, and so neither returns nor
      throws, has the outcome [Undefined].
    - The two [for] loops are functions with a step budget (fuel): [None]
      means the budget ran out before the loop left. *)

From Stdlib Require Import ZArith Lia Bool String List.

Local Open Scope Z_scope.

(** ** Machine integers *)

Definition INT_MIN : Z := -2147483648.
Definition INT_MAX : Z := 2147483647.
Definition LLONG_MIN : Z := -9223372036854775808.
Definition LLONG_MAX : Z := 9223372036854775807.

Definition in_int (z : Z) : Prop := INT_MIN <= z <= INT_MAX.
Definition in_llong (z : Z) : Prop := LLONG_MIN <= z <= LLONG_MAX.

(** The value of the [w]-bit two's-complement word that holds the low [w]
    bits of [z]. *)
Definition wrap (w : Z) (z : Z) : Z :=
  (z + 2 ^ (w - 1)) mod 2 ^ w - 2 ^ (w - 1).

Definition wrap32 : Z -> Z := wrap 32.
Definition wrap64 : Z -> Z := wrap 64.

(** The operators of type [int].  [div] is partial: [a / b] has a value
    only if [b] is not 0 and the quotient is representable in [int]. *)
Module Int.
Definition representable (z : Z) : bool :=
  (INT_MIN <=? z) && (z <=? INT_MAX).
Definition add (a b : Z) : Z := wrap32 (a + b).
Definition sub (a b : Z) : Z := wrap32 (a - b).
Definition mul (a b : Z) : Z := wrap32 (a * b).
Definition div (a b : Z) : option Z :=
  if b =? 0 then None
  else if representable (Z.quot a b) then Some (Z.quot a b)
  else None.
Definition rem (a b : Z) : Z := wrap32 (Z.rem a b).
Definition neg (a : Z) : Z := wrap32 (- a).
End Int.

(** The operators of type [long long] the source uses. *)
Module LongLong.
Definition mul (a b : Z) : Z := wrap64 (a * b).
End LongLong.

(** ** Outcomes of a call *)

Inductive exception : Type :=
| invalid_argument (what : string).

Inductive outcome (A : Type) : Type :=
| Return (v : A)
| Throw (e : exception)
| Undefined.

Arguments Return {A} v.
Arguments Throw {A} e.
Arguments Undefined {A}.

(** A computation with a step budget returns [v] when some budget is
    enough for it, and diverges when none is. *)
Definition returns {A : Type} (run : nat -> option A) (v : A) : Prop :=
  exists fuel, run fuel = Some v.

Definition diverges {A : Type} (run : nat -> option A) : Prop :=
  forall fuel, run fuel = None.

(** ** The functions of [math_utils] *)

Module math_utils.

Definition Add (a b : Z) : Z := Int.add a b.

Definition Subtract (a b : Z) : Z := Int.sub a b.

Definition Multiply (a b : Z) : Z := Int.mul a b.

Definition Divide (a b : Z) : outcome Z :=
  if b =? 0 then
    Throw (invalid_argument "Division by zero is not allowed")
  else match Int.div a b with
       | Some q => Return q
       | None => Undefined
       end.

(** [for (int i = 3; i * i <= n; i += 2) if (n % i == 0) return false;
     return true;], entered with the current [i]. *)
Fixpoint IsPrime_loop (fuel : nat) (n i : Z) : option bool :=
  match fuel with
  | O => None
  | S fuel' =>
      if Int.mul i i <=? n then
        if Int.rem n i =? 0 then Some false
        else IsPrime_loop fuel' n (Int.add i 2)
      else Some true
  end.

Definition IsPrime_fuel (n : Z) (fuel : nat) : option bool :=
  if n <? 2 then Some false
  else if n =? 2 then Some true
  else if Int.rem n 2 =? 0 then Some false
  else IsPrime_loop fuel n 3.

(** [for (int i = 2; i <= n; ++i) result *= i; return result;], entered
    with the current [i] and [result]. *)
Fixpoint Factorial_loop (fuel : nat) (n i result : Z) : option Z :=
  match fuel with
  | O => None
  | S fuel' =>
      if i <=? n then
        Factorial_loop fuel' n (Int.add i 1) (LongLong.mul result i)
      else Some result
  end.

Definition Factorial_fuel (n : Z) (fuel : nat) : option (outcome Z) :=
  if n <? 0 then
    Some (Throw (invalid_argument
                   "Factorial is not defined for negative numbers"))
  else if (n =? 0) || (n =? 1) then Some (Return 1)
  else option_map Return (Factorial_loop fuel n 2 1).

(** The two loop functions run with a budget of [n] steps, which is
    enough whenever the loop is left at all (see [IsPrime_total] and
    [Factorial_fuel_enough]). *)
Definition IsPrime (n : Z) : option bool := IsPrime_fuel n (Z.to_nat n).

Definition Factorial (n : Z) : option (outcome Z) :=
  Factorial_fuel n (Z.to_nat n).

End math_utils.

Import math_utils.

(** ** The function exported by the Emscripten sample

    [samples/hello_emscripten/src/main.cpp] exports, under
    [__EMSCRIPTEN__], the functions [say_hello] and [add_numbers] to
    JavaScript (the 32-bit addition of WebAssembly wraps). *)

Module hello_emscripten.

(** [std::endl] writes a newline (and flushes, which has no content). *)
Definition endl : string := String (Ascii.ascii_of_nat 10) EmptyString.

(** [say_hello(name)] writes one line to [std::cout]; the stream is the
    text written so far, [name] the characters of the C string. *)
Definition say_hello (name : string) (cout : string) : string :=
  (cout ++ "Hello " ++ name ++ " from C++!" ++ endl)%string.

Definition add_numbers (a b : Z) : Z := Int.add a b.

End hello_emscripten.

Import hello_emscripten.

(** ** Reference notions *)

(** The mathematical factorial [1 * 2 * ... * k], with values in [Z]. *)
Fixpoint Zfact_nat (k : nat) : Z :=
  match k with
  | O => 1
  | S k' => Zfact_nat k' * Z.of_nat (S k')
  end.

Definition Zfact (n : Z) : Z := Zfact_nat (Z.to_nat n).

(** Primality is [Z.prime]: [1 < p] and no [d] with [1 < d < p] divides
    [p].  [no_divisor_below n i] says that no such [d] below [i] divides
    [n]; it is what the trial-division loop has established when it
    reaches the candidate [i]. *)
Definition no_divisor_below (n i : Z) : Prop :=
  forall d, 1 < d < i -> ~ (d | n).

(** A plain check that none of the [k] integers [d], [d + 1], ... divides
    [n], used to establish primality of a given number by computation. *)
Fixpoint none_divides (k : nat) (n d : Z) : bool :=
  match k with
  | O => true
  | S k' => negb (Z.rem n d =? 0) && none_divides k' n (d + 1)
  end.

(** ** The tests of the sample's suites *)

Example test_add : Add 2 3 = 5 /\ Add (-1) 1 = 0 /\ Add (-5) (-3) = -8.
Proof. repeat split; reflexivity. Qed.

Example test_subtract : Subtract 5 3 = 2 /\ Subtract 0 5 = -5.
Proof. repeat split; reflexivity. Qed.

Example test_multiply : Multiply 3 4 = 12 /\ Multiply (-2) 3 = -6.
Proof. repeat split; reflexivity. Qed.

Example test_divide :
  Divide 10 2 = Return 5 /\ Divide (-10) 2 = Return (-5) /\
  Divide 7 3 = Return 2 /\
  Divide 5 0 = Throw (invalid_argument "Division by zero is not allowed").
Proof. repeat split; reflexivity. Qed.

Example test_is_prime :
  map IsPrime (2 :: 3 :: 5 :: 7 :: 11 :: 13 :: 17 :: 19 :: nil)
  = map (fun _ => Some true) (2 :: 3 :: 5 :: 7 :: 11 :: 13 :: 17 :: 19 :: nil)
  /\ map IsPrime (1 :: 4 :: 6 :: 8 :: 9 :: 10 :: 0 :: -1 :: -5 :: nil)
     = map (fun _ => Some false) (1 :: 4 :: 6 :: 8 :: 9 :: 10 :: 0 :: -1 :: -5 :: nil).
Proof. split; vm_compute; reflexivity. Qed.

Example test_factorial :
  map Factorial (0 :: 1 :: 2 :: 3 :: 4 :: 5 :: nil)
  = map (fun v => Some (Return v)) (1 :: 1 :: 2 :: 6 :: 24 :: 120 :: nil)
  /\ Factorial (-1)
     = Some (Throw (invalid_argument
                      "Factorial is not defined for negative numbers")).
Proof. split; vm_compute; reflexivity. Qed.

(** ** Two's-complement reduction *)

Section Wrap.

Lemma wrap32_unfold (z : Z) :
  wrap32 z = (z + 2147483648) mod 4294967296 - 2147483648.
Proof. reflexivity. Qed.

Lemma wrap64_unfold (z : Z) :
  wrap64 z
  = (z + 9223372036854775808) mod 18446744073709551616
    - 9223372036854775808.
Proof. reflexivity. Qed.

Lemma wrap32_range (z : Z) : in_int (wrap32 z).
Proof.
  rewrite wrap32_unfold. unfold in_int, INT_MIN, INT_MAX.
  pose proof (Z.mod_pos_bound (z + 2147483648) 4294967296). lia.
Qed.

Lemma wrap32_id (z : Z) : in_int z -> wrap32 z = z.
Proof.
  unfold in_int, INT_MIN, INT_MAX. intros Hz.
  rewrite wrap32_unfold, Z.mod_small; lia.
Qed.

Lemma wrap32_shift (z k : Z) : wrap32 (z + k * 4294967296) = wrap32 z.
Proof.
  rewrite !wrap32_unfold.
  replace (z + k * 4294967296 + 2147483648)
    with (z + 2147483648 + k * 4294967296) by ring.
  now rewrite Z.mod_add.
Qed.

Lemma wrap32_spec (z : Z) : exists k, wrap32 z = z + k * 4294967296.
Proof.
  exists (- ((z + 2147483648) / 4294967296)).
  rewrite wrap32_unfold, Z.mod_eq by lia. ring.
Qed.

Lemma wrap64_range (z : Z) : in_llong (wrap64 z).
Proof.
  rewrite wrap64_unfold. unfold in_llong, LLONG_MIN, LLONG_MAX.
  pose proof (Z.mod_pos_bound (z + 9223372036854775808)
                18446744073709551616). lia.
Qed.

Lemma wrap64_id (z : Z) : in_llong z -> wrap64 z = z.
Proof.
  unfold in_llong, LLONG_MIN, LLONG_MAX. intros Hz.
  rewrite wrap64_unfold, Z.mod_small; lia.
Qed.

Lemma wrap64_shift (z k : Z) :
  wrap64 (z + k * 18446744073709551616) = wrap64 z.
Proof.
  rewrite !wrap64_unfold.
  replace (z + k * 18446744073709551616 + 9223372036854775808)
    with (z + 9223372036854775808 + k * 18446744073709551616) by ring.
  now rewrite Z.mod_add.
Qed.

Lemma wrap64_spec (z : Z) :
  exists k, wrap64 z = z + k * 18446744073709551616.
Proof.
  exists (- ((z + 9223372036854775808) / 18446744073709551616)).
  rewrite wrap64_unfold, Z.mod_eq by lia. ring.
Qed.

(** Reducing a factor first does not change the reduced product. *)
Lemma wrap64_mul_l (x y : Z) : wrap64 (wrap64 x * y) = wrap64 (x * y).
Proof.
  destruct (wrap64_spec x) as [k ->].
  replace ((x + k * 18446744073709551616) * y)
    with (x * y + (k * y) * 18446744073709551616) by ring.
  apply wrap64_shift.
Qed.

End Wrap.

(** ** Add and Subtract *)

(** C7. [Add] is commutative: [Add(a, b) == Add(b, a)] for all arguments,
    in particular for every pair of 32-bit integers, whether or not the
    sum wraps. *)
Theorem Add_comm (a b : Z) : Add a b = Add b a.
Proof. unfold Add, Int.add. now rewrite Z.add_comm. Qed.

(** C6. Subtracting [b] from the sum gives [a] back:
    [Subtract(Add(a, b), b) == a] for every pair of 32-bit integers, also
    when the intermediate sum wraps around. *)
Theorem Subtract_Add_cancel (a b : Z) :
  in_int a -> in_int b -> Subtract (Add a b) b = a.
Proof.
  intros Ha _. unfold Subtract, Add, Int.sub, Int.add.
  destruct (wrap32_spec (a + b)) as [k ->].
  replace (a + b + k * 4294967296 - b) with (a + k * 4294967296) by ring.
  rewrite wrap32_shift. now apply wrap32_id.
Qed.

(** The witness takes a sum that wraps: [INT_MAX + 1]. *)
Lemma Subtract_Add_cancel_witness :
  in_int INT_MAX /\ in_int 1 /\ Add INT_MAX 1 = INT_MIN /\
  Subtract (Add INT_MAX 1) 1 = INT_MAX.
Proof.
  assert (H1 : in_int INT_MAX) by (unfold in_int, INT_MIN, INT_MAX; lia).
  assert (H2 : in_int 1) by (unfold in_int, INT_MIN, INT_MAX; lia).
  split; [exact H1 | split; [exact H2 | split; [reflexivity |] ] ].
  exact (Subtract_Add_cancel INT_MAX 1 H1 H2).
Defined.

(** C8. [Subtract] is anti-commutative in 32-bit arithmetic:
    [Subtract(a, b) == -Subtract(b, a)], the negation being the unary
    minus of type [int] (wrap-around semantics), for all arguments and in
    particular at the extremes of the range. *)
Theorem Subtract_anticomm (a b : Z) : Subtract a b = Int.neg (Subtract b a).
Proof.
  unfold Subtract, Int.sub, Int.neg.
  destruct (wrap32_spec (b - a)) as [k ->].
  replace (- (b - a + k * 4294967296)) with (a - b + (- k) * 4294967296)
    by ring.
  now rewrite wrap32_shift.
Qed.

Example Subtract_anticomm_extremes :
  Subtract INT_MIN 0 = INT_MIN /\ Subtract 0 INT_MIN = INT_MIN /\
  Int.neg INT_MIN = INT_MIN /\
  Subtract INT_MAX INT_MIN = -1 /\ Subtract INT_MIN INT_MAX = 1.
Proof. repeat split; reflexivity. Qed.

(** ** Divide *)

Lemma Divide_throws_iff (a b : Z) :
  (exists e, Divide a b = Throw e) <-> b = 0.
Proof.
  unfold Divide. destruct (Z.eqb_spec b 0) as [-> | Hb]; split.
  - reflexivity.
  - intros _. eexists. reflexivity.
  - intros [e He]. destruct (Int.div a b); discriminate He.
  - intros Hb'. contradiction.
Qed.

Lemma representable_iff (z : Z) : Int.representable z = true <-> in_int z.
Proof.
  unfold Int.representable, in_int.
  rewrite andb_true_iff, !Z.leb_le. reflexivity.
Qed.

Lemma Int_div_defined (a b : Z) :
  b <> 0 -> in_int (Z.quot a b) -> Int.div a b = Some (Z.quot a b).
Proof.
  intros Hb Hq. unfold Int.div.
  destruct (Z.eqb_spec b 0); [contradiction |].
  apply representable_iff in Hq. now rewrite Hq.
Qed.

Lemma Divide_returns (a b : Z) :
  b <> 0 -> in_int (Z.quot a b) -> Divide a b = Return (Z.quot a b).
Proof.
  intros Hb Hq. unfold Divide.
  destruct (Z.eqb_spec b 0); [contradiction |].
  now rewrite Int_div_defined.
Qed.

(** The exact quotient of two [int]s is an [int], but for
    [INT_MIN / -1]. *)
Lemma quot_in_int (a b : Z) :
  in_int a -> in_int b -> b <> 0 -> ~ (a = INT_MIN /\ b = -1) ->
  in_int (Z.quot a b).
Proof.
  unfold in_int, INT_MIN, INT_MAX. intros Ha Hb Hb0 Hex.
  rewrite (Z.quot_div a b Hb0).
  assert (Hm : 0 <= Z.abs a / Z.abs b) by (apply Z.div_pos; lia).
  destruct (Z.eq_dec (Z.abs b) 1) as [Hb1 | Hb1].
  - rewrite Hb1, Z.div_1_r in *.
    destruct (Z.sgn_spec a) as [ [? ->] | [ [? ->] | [? ->] ] ];
      destruct (Z.sgn_spec b) as [ [? ->] | [ [? ->] | [? ->] ] ]; lia.
  - assert (Hle : Z.abs a / Z.abs b <= 1073741824)
      by (apply Z.div_le_upper_bound; lia).
    destruct (Z.sgn_spec a) as [ [? ->] | [ [? ->] | [? ->] ] ];
      destruct (Z.sgn_spec b) as [ [? ->] | [ [? ->] | [? ->] ] ]; lia.
Qed.

Lemma rem_in_int (a b : Z) : in_int a -> b <> 0 -> in_int (Z.rem a b).
Proof.
  unfold in_int, INT_MIN, INT_MAX. intros Ha Hb.
  destruct (Z.le_gt_cases 0 a) as [Hpos | Hneg].
  - pose proof (Z.rem_nonneg a b Hb Hpos).
    pose proof (Z.rem_sign_mul a b Hb).
    assert (Z.abs (Z.rem a b) <= Z.abs a).
    { rewrite <- Z.rem_abs by assumption.
      destruct (Z.eq_dec (Z.abs b) 0); [lia |].
      apply Z.rem_le; lia. }
    lia.
  - assert (Z.rem a b <= 0) by (apply Z.rem_nonpos; lia).
    assert (Z.abs (Z.rem a b) <= Z.abs a).
    { rewrite <- Z.rem_abs by assumption. apply Z.rem_le; lia. }
    lia.
Qed.

(** C3 (as stated, refuted). At [a = INT_MIN], [b = -1] the quotient
    truncated toward zero is [2^31], which is not a 32-bit integer: the
    division [a / b] has no value, and [Divide] does not return the
    quotient (it returns nothing, and does not throw either). *)
Lemma Divide_INT_MIN_neg1_not_quotient :
  in_int INT_MIN /\ in_int (-1) /\ -1 <> 0 /\
  Z.quot INT_MIN (-1) = 2147483648 /\
  ~ in_int (Z.quot INT_MIN (-1)) /\
  Divide INT_MIN (-1) = Undefined /\
  Divide INT_MIN (-1) <> Return (Z.quot INT_MIN (-1)).
Proof.
  unfold in_int, INT_MIN, INT_MAX.
  repeat split; try lia; try reflexivity.
  - vm_compute. intros [_ H]. now apply H.
  - vm_compute. discriminate.
Qed.

(** On 32-bit arguments this is the only division without a value. *)
Lemma Divide_undefined_iff (a b : Z) :
  in_int a -> in_int b ->
  (Divide a b = Undefined <-> a = INT_MIN /\ b = -1).
Proof.
  intros Ha Hb. split.
  - intros Hu. destruct (Z.eq_dec b 0) as [-> | Hb0]; [discriminate Hu |].
    destruct (Z.eq_dec a INT_MIN) as [Ea | Na];
      [destruct (Z.eq_dec b (-1)) as [Eb | Nb]; [now split |] |];
      rewrite Divide_returns in Hu
        by (try apply quot_in_int; try assumption; tauto);
      discriminate Hu.
  - intros [-> ->]. reflexivity.
Qed.

(** C3 (amended). For every pair of 32-bit integers [a], [b] with
    [b <> 0], other than [a = INT_MIN] with [b = -1], [Divide(a, b)]
    returns the quotient of [a] by [b] truncated toward zero; with
    [r = a - Divide(a,b) * b], computed by [Subtract] and [Multiply]
    without wrap-around, [Divide(a,b) * b + r] is [a] again, [r] is zero
    or has the sign of the dividend [a], and [|r| < |b|]. *)
Theorem Divide_truncates (a b : Z) :
  in_int a -> in_int b -> b <> 0 -> ~ (a = INT_MIN /\ b = -1) ->
  exists q,
    Divide a b = Return q /\ q = Z.quot a b /\
    Z.abs q = Z.abs a / Z.abs b /\
    (0 <= q * Z.sgn a * Z.sgn b) /\
    let r := Subtract a (Multiply q b) in
    r = a - q * b /\
    Add (Multiply q b) r = a /\
    (0 <= a -> 0 <= r) /\ (a <= 0 -> r <= 0) /\ Z.abs r < Z.abs b.
Proof.
  intros Ha Hb Hb0 Hex. exists (Z.quot a b).
  pose proof (quot_in_int a b Ha Hb Hb0 Hex) as Hq.
  pose proof (rem_in_int a b Ha Hb0) as Hr.
  pose proof (Z.quot_rem' a b) as E.
  assert (Eqb : Z.quot a b * b = a - Z.rem a b) by lia.
  assert (Hqb : in_int (Z.quot a b * b)).
  { rewrite Eqb. unfold in_int, INT_MIN, INT_MAX in *.
    destruct (Z.le_gt_cases 0 a) as [Hpos | Hneg].
    - pose proof (Z.rem_nonneg a b Hb0 Hpos). lia.
    - assert (Z.rem a b <= 0) by (apply Z.rem_nonpos; lia). lia. }
  split; [| split; [reflexivity | split; [| split] ] ].
  - now apply Divide_returns.
  - rewrite <- Z.quot_abs by assumption.
    apply Z.quot_div_nonneg; lia.
  - rewrite (Z.quot_div a b Hb0).
    assert (0 <= Z.abs a / Z.abs b) by (apply Z.div_pos; lia).
    destruct (Z.sgn_spec a) as [ [? ->] | [ [? ->] | [? ->] ] ];
      destruct (Z.sgn_spec b) as [ [? ->] | [ [? ->] | [? ->] ] ]; lia.
  - cbv zeta. unfold Subtract, Add, Multiply, Int.sub, Int.add, Int.mul.
    rewrite (wrap32_id _ Hqb).
    assert (Er : a - Z.quot a b * b = Z.rem a b) by lia.
    rewrite Er, (wrap32_id _ Hr).
    split; [reflexivity | split; [| split; [| split] ] ].
    + rewrite Eqb. replace (a - Z.rem a b + Z.rem a b) with a by ring.
      now apply wrap32_id.
    + now apply Z.rem_nonneg.
    + now apply Z.rem_nonpos.
    + now apply Z.rem_bound_abs.
Qed.

Lemma Divide_truncates_witness :
  exists q,
    Divide (-7) 2 = Return q /\ q = -3 /\
    Subtract (-7) (Multiply q 2) = -1.
Proof.
  assert (Ha : in_int (-7)) by (unfold in_int, INT_MIN, INT_MAX; lia).
  assert (Hb : in_int 2) by (unfold in_int, INT_MIN, INT_MAX; lia).
  assert (Hb0 : 2 <> 0) by lia.
  assert (Hex : ~ (-7 = INT_MIN /\ 2 = -1)) by (intros [_ H]; lia).
  destruct (Divide_truncates (-7) 2 Ha Hb Hb0 Hex)
    as (q & Hd & Hq & _ & _ & Hr & _).
  exists q. split; [exact Hd | split; [exact Hq |] ].
  rewrite Hr, Hq. reflexivity.
Defined.

(** ** Factorial *)

Section FactorialLoop.

Lemma Zfact_nat_fact (k : nat) : Zfact_nat k = Z.of_nat (fact k).
Proof.
  induction k as [| k IH]; [reflexivity |].
  change (Zfact_nat (S k)) with (Zfact_nat k * Z.of_nat (S k)).
  change (fact (S k)) with (S k * fact k)%nat.
  rewrite IH, Nat2Z.inj_mul. ring.
Qed.

Lemma Zfact_step (i : Z) : 1 <= i -> Zfact i = Zfact (i - 1) * i.
Proof.
  intros Hi. unfold Zfact.
  replace (Z.to_nat i) with (S (Z.to_nat (i - 1))) by lia.
  change (Zfact_nat (S (Z.to_nat (i - 1))))
    with (Zfact_nat (Z.to_nat (i - 1)) * Z.of_nat (S (Z.to_nat (i - 1)))).
  f_equal. lia.
Qed.

Lemma Zfact_pos (n : Z) : 0 < Zfact n.
Proof.
  unfold Zfact. induction (Z.to_nat n) as [| k IH]; [reflexivity |].
  change (Zfact_nat (S k)) with (Zfact_nat k * Z.of_nat (S k)). lia.
Qed.

(** More budget never changes a value already returned. *)
Lemma Factorial_loop_mono (fuel extra : nat) (n i r v : Z) :
  Factorial_loop fuel n i r = Some v ->
  Factorial_loop (fuel + extra) n i r = Some v.
Proof.
  revert i r. induction fuel as [| fuel IH]; intros i r; [discriminate |].
  cbn [Factorial_loop Nat.add].
  destruct (i <=? n); [apply IH | trivial].
Qed.

(** The loop invariant: on entry with counter [i], [result] is
    [(i - 1)!] reduced to 64 bits.  When [n < INT_MAX] the counter never
    wraps and the loop is left after [n + 1 - i] multiplications. *)
Lemma Factorial_loop_spec (k : nat) :
  forall (fuel : nat) (n i r : Z),
    n < INT_MAX -> 2 <= i <= n + 1 ->
    k = Z.to_nat (n + 1 - i) -> (k < fuel)%nat ->
    r = wrap64 (Zfact (i - 1)) ->
    Factorial_loop fuel n i r = Some (wrap64 (Zfact n)).
Proof.
  induction k as [| k IH]; intros fuel n i r Hn Hi Hk Hfuel Hr;
    (destruct fuel as [| fuel]; [lia |]); cbn [Factorial_loop].
  - assert (i = n + 1) by lia. subst i.
    destruct (Z.leb_spec (n + 1) n); [lia |].
    rewrite Hr. now replace (n + 1 - 1) with n by ring.
  - destruct (Z.leb_spec i n); [| lia].
    assert (Hi1 : Int.add i 1 = i + 1).
    { apply wrap32_id. unfold in_int, INT_MIN, INT_MAX in *. lia. }
    rewrite Hi1. apply IH; try lia.
    replace (i + 1 - 1) with i by ring.
    unfold LongLong.mul. rewrite Hr, wrap64_mul_l.
    now rewrite <- Zfact_step by lia.
Qed.

(** With [n = INT_MAX] the test [i <= n] holds for every [int], and the
    counter wraps from [INT_MAX] to [INT_MIN]: no budget is enough. *)
Lemma Factorial_loop_INT_MAX (fuel : nat) :
  forall i r, in_int i -> Factorial_loop fuel INT_MAX i r = None.
Proof.
  induction fuel as [| fuel IH]; intros i r Hi; [reflexivity |].
  cbn [Factorial_loop].
  destruct (Z.leb_spec i INT_MAX) as [_ | Hgt].
  - apply IH. apply wrap32_range.
  - unfold in_int in Hi. lia.
Qed.

End FactorialLoop.

Lemma Factorial_fuel_mono (n : Z) (fuel extra : nat) (o : outcome Z) :
  Factorial_fuel n fuel = Some o -> Factorial_fuel n (fuel + extra) = Some o.
Proof.
  unfold Factorial_fuel.
  destruct (n <? 0); [trivial |]. destruct ((n =? 0) || (n =? 1)); [trivial |].
  destruct (Factorial_loop fuel n 2 1) as [v |] eqn:E; [| discriminate].
  now rewrite (Factorial_loop_mono _ extra _ _ _ _ E).
Qed.

(** For [0 <= n < INT_MAX] a budget of [n] steps is enough and the value is
    [n!] reduced to 64 bits. *)
Lemma Factorial_fuel_enough (n : Z) (fuel : nat) :
  0 <= n < INT_MAX -> (Z.to_nat n <= fuel)%nat ->
  Factorial_fuel n fuel = Some (Return (wrap64 (Zfact n))).
Proof.
  intros Hn Hfuel. unfold Factorial_fuel.
  destruct (Z.ltb_spec n 0); [lia |].
  destruct (Z.eqb_spec n 0) as [-> | H0]; [reflexivity |].
  destruct (Z.eqb_spec n 1) as [-> | H1]; [reflexivity |].
  cbn [orb].
  rewrite (Factorial_loop_spec (Z.to_nat (n + 1 - 2)) fuel n 2 1);
    try reflexivity; lia.
Qed.

Lemma Factorial_value (n : Z) :
  0 <= n < INT_MAX -> Factorial n = Some (Return (wrap64 (Zfact n))).
Proof. intros Hn. apply Factorial_fuel_enough; [exact Hn | lia]. Qed.

Lemma Factorial_throws_iff (n : Z) :
  (exists e, returns (Factorial_fuel n) (Throw e)) <-> n < 0.
Proof.
  unfold returns, Factorial_fuel. split.
  - intros (e & fuel & H). destruct (Z.ltb_spec n 0); [assumption |].
    destruct ((n =? 0) || (n =? 1)); [discriminate |].
    destruct (Factorial_loop fuel n 2 1); discriminate.
  - intros Hn. destruct (Z.ltb_spec n 0); [| lia].
    eexists. exists O. reflexivity.
Qed.

Lemma Factorial_INT_MAX_None (fuel : nat) :
  Factorial_fuel INT_MAX fuel = None.
Proof.
  unfold Factorial_fuel.
  change (INT_MAX <? 0) with false.
  change ((INT_MAX =? 0) || (INT_MAX =? 1)) with false. cbv iota.
  rewrite Factorial_loop_INT_MAX; [reflexivity |].
  unfold in_int, INT_MIN, INT_MAX. lia.
Qed.

(** ** IsPrime: number-theoretic preliminaries *)

Lemma none_divides_spec (k : nat) :
  forall n d, 0 < d -> none_divides k n d = true ->
              forall e, d <= e < d + Z.of_nat k -> ~ (e | n).
Proof.
  induction k as [| k IH]; intros n d Hd Hc e He; [lia |].
  cbn [none_divides] in Hc. apply andb_prop in Hc as [Hc1 Hc2].
  destruct (Z.eq_dec e d) as [-> | Hne].
  - intros Hdiv. apply Z.rem_divide in Hdiv; [| lia].
    rewrite Hdiv in Hc1. discriminate Hc1.
  - apply (IH n (d + 1)); [lia | exact Hc2 | lia].
Qed.

(** Trial division up to the square root decides primality. *)
Lemma prime_by_trial (n : Z) :
  1 < n -> (forall d, 1 < d -> d * d <= n -> ~ (d | n)) -> Z.prime n.
Proof.
  intros Hn Htrial. split; [exact Hn |].
  intros m Hm [q Hq].
  assert (Hq1 : 1 < q < n) by nia.
  destruct (Z.le_gt_cases (m * m) n) as [Hle | Hgt].
  - apply (Htrial m); [lia | exact Hle | now exists q].
  - apply (Htrial q); [lia | nia | exists m; lia].
Qed.

Lemma prime_rem_nonzero (n i : Z) :
  Z.prime n -> 1 < i < n -> Z.rem n i <> 0.
Proof.
  intros [_ Hp] Hi Hr. apply (Hp i Hi). apply Z.rem_divide; [lia | exact Hr].
Qed.

Lemma INT_MAX_prime : Z.prime INT_MAX.
Proof.
  apply prime_by_trial; [reflexivity |].
  intros d Hd Hsq.
  apply (none_divides_spec (Z.to_nat 46339) INT_MAX 2); [lia | | ].
  - vm_compute. reflexivity.
  - unfold INT_MAX in Hsq. rewrite Z2Nat.id by lia. nia.
Qed.

Lemma odd_no_even_divisor (n d : Z) :
  n mod 2 = 1 -> d mod 2 = 0 -> ~ (d | n).
Proof.
  intros Hn Hd [q Hq].
  assert (E : n = (q * (d / 2)) * 2).
  { rewrite Hq. pose proof (Z.div_mod d 2). lia. }
  rewrite E, Z.mod_mul in Hn by lia. discriminate Hn.
Qed.

(** For odd [n], trying the odd candidates is enough. *)
Lemma odd_trial_iff_prime (n : Z) :
  2 < n -> n mod 2 = 1 ->
  (forall d, 3 <= d -> d mod 2 = 1 -> d * d <= n -> ~ (d | n)) <-> Z.prime n.
Proof.
  intros Hn Hodd. split.
  - intros Htrial. apply prime_by_trial; [lia |].
    intros d Hd Hsq.
    destruct (Z.mod_pos_bound d 2 ltac:(lia)) as [Hlo Hhi].
    destruct (Z.eq_dec (d mod 2) 0) as [Heven | Hne].
    + now apply odd_no_even_divisor.
    + assert (Hd_odd : d mod 2 = 1) by lia.
      apply Htrial; [| exact Hd_odd | exact Hsq].
      destruct (Z.eq_dec d 2) as [-> | ?]; [discriminate Hd_odd | lia].
  - intros [_ Hp] d Hd _ Hsq. apply Hp. nia.
Qed.

Lemma no_divisor_below_3 (n : Z) : n mod 2 = 1 -> no_divisor_below n 3.
Proof.
  intros Hn d Hd. assert (d = 2) as -> by lia.
  now apply odd_no_even_divisor.
Qed.

Lemma no_divisor_below_step (n i : Z) :
  n mod 2 = 1 -> i mod 2 = 1 -> 0 < i ->
  no_divisor_below n i -> Z.rem n i <> 0 -> no_divisor_below n (i + 2).
Proof.
  intros Hn Hi Hpos Hinv Hrem d Hd.
  destruct (Z.lt_trichotomy d i) as [Hlt | [-> | Hgt] ].
  - apply Hinv. lia.
  - intros Hdiv. apply Hrem. apply Z.rem_divide; [lia | exact Hdiv].
  - assert (d = i + 1) as -> by lia.
    apply odd_no_even_divisor; [exact Hn |].
    rewrite Z.add_mod, Hi by lia. reflexivity.
Qed.

(** ** IsPrime: the trial-division loop *)

Lemma Int_rem_exact (n i : Z) : in_int n -> i <> 0 -> Int.rem n i = Z.rem n i.
Proof. intros Hn Hi. apply wrap32_id. now apply rem_in_int. Qed.

(** [i * i] does not wrap for candidates up to 46340. *)
Lemma Int_mul_square_exact (i : Z) : 0 <= i <= 46340 -> Int.mul i i = i * i.
Proof.
  intros Hi. apply wrap32_id. unfold in_int, INT_MIN, INT_MAX. nia.
Qed.

Lemma Int_add_exact (i k : Z) :
  INT_MIN <= i + k <= INT_MAX -> Int.add i k = i + k.
Proof. intros H. now apply wrap32_id. Qed.

Lemma odd_next_le (i n : Z) :
  i mod 2 = 1 -> n mod 2 = 1 -> i <= n -> i <> n -> i + 2 <= n.
Proof.
  intros Hi Hn Hle Hne.
  pose proof (Z.div_mod i 2). pose proof (Z.div_mod n 2). lia.
Qed.

Lemma odd_plus_2 (i : Z) : i mod 2 = 1 -> (i + 2) mod 2 = 1.
Proof. intros Hi. rewrite Z.add_mod, Hi by lia. reflexivity. Qed.

Lemma IsPrime_loop_mono (fuel extra : nat) (n : Z) :
  forall i b, IsPrime_loop fuel n i = Some b ->
              IsPrime_loop (fuel + extra) n i = Some b.
Proof.
  induction fuel as [| fuel IH]; intros i b; [discriminate |].
  cbn [IsPrime_loop Nat.add].
  destruct (Int.mul i i <=? n); [| trivial].
  destruct (Int.rem n i =? 0); [trivial | apply IH].
Qed.

Section TrialDivision.

(** The loop is entered with an odd [n >= 3]. *)
Variable n : Z.
Hypothesis n_range : 3 <= n <= INT_MAX.
Hypothesis n_odd : n mod 2 = 1.

Lemma n_int : in_int n.
Proof. unfold in_int, INT_MIN, INT_MAX in *. lia. Qed.

(** One turn of the loop at an odd candidate [3 <= i <= n]: either it
    returns, or it goes on with [i + 2 <= n], unwrapped. *)
Lemma IsPrime_loop_turn (fuel : nat) (i : Z) :
  3 <= i <= n -> i mod 2 = 1 ->
  IsPrime_loop (S fuel) n i
  = if Int.mul i i <=? n then
      if Z.rem n i =? 0 then Some false else IsPrime_loop fuel n (i + 2)
    else Some true.
Proof.
  intros Hi Hodd. cbn [IsPrime_loop].
  rewrite Int_rem_exact by (exact n_int || lia).
  destruct (Int.mul i i <=? n); [| reflexivity].
  destruct (Z.eqb_spec (Z.rem n i) 0) as [| Hrem]; [reflexivity |].
  rewrite Int_add_exact; [reflexivity |].
  assert (i <> n) by (intros ->; apply Hrem, Z.rem_same; lia).
  pose proof (odd_next_le i n Hodd n_odd (proj2 Hi) H).
  clear Hrem. unfold INT_MIN, INT_MAX in *. lia.
Qed.

Lemma next_candidate (i : Z) :
  3 <= i <= n -> i mod 2 = 1 -> Z.rem n i <> 0 ->
  3 <= i + 2 <= n /\ (i + 2) mod 2 = 1.
Proof.
  intros Hi Hodd Hrem.
  assert (i <> n) by (intros ->; apply Hrem, Z.rem_same; lia).
  pose proof (odd_next_le i n Hodd n_odd (proj2 Hi) H).
  clear Hrem. split; [lia | now apply odd_plus_2].
Qed.

(** Termination: the candidate never passes [n], where [n % i] is 0. *)
Lemma IsPrime_loop_total (k : nat) :
  forall fuel i,
    3 <= i <= n -> i mod 2 = 1 ->
    (Z.to_nat (n - i) <= k)%nat -> (k < fuel)%nat ->
    exists b, IsPrime_loop fuel n i = Some b.
Proof.
  induction k as [| k IH]; intros fuel i Hi Hodd Hk Hfuel;
    (destruct fuel as [| fuel]; [lia |]);
    rewrite IsPrime_loop_turn by assumption;
    (destruct (Int.mul i i <=? n); [| now exists true]);
    (destruct (Z.eqb_spec (Z.rem n i) 0) as [| Hrem]; [now exists false |]);
    destruct (next_candidate i Hi Hodd Hrem) as [Hi' Hodd'].
  - lia.
  - apply IH; [exact Hi' | exact Hodd' | lia | lia].
Qed.

(** Soundness: an answer [true] is only given for a prime.  When the
    square has wrapped ([i > 46340]) every candidate up to the square
    root of [n] has been tried already. *)
Lemma IsPrime_loop_sound (fuel : nat) :
  forall i,
    3 <= i <= n -> i mod 2 = 1 -> no_divisor_below n i ->
    IsPrime_loop fuel n i = Some true -> Z.prime n.
Proof.
  induction fuel as [| fuel IH]; intros i Hi Hodd Hinv; [discriminate |].
  rewrite IsPrime_loop_turn by assumption.
  destruct (Z.leb_spec (Int.mul i i) n) as [Hle | Hgt].
  - destruct (Z.eqb_spec (Z.rem n i) 0) as [| Hrem]; [discriminate |].
    destruct (next_candidate i Hi Hodd Hrem) as [Hi' Hodd'].
    apply IH; [exact Hi' | exact Hodd' |].
    apply no_divisor_below_step; (assumption || lia).
  - intros _. apply prime_by_trial; [lia |].
    intros d Hd Hsq. apply Hinv. split; [exact Hd |].
    destruct (Z.le_gt_cases i 46340) as [Hsmall | Hbig].
    + rewrite Int_mul_square_exact in Hgt by lia. nia.
    + unfold INT_MAX in n_range. nia.
Qed.

(** Completeness below [46339 * 46339]: no square the loop forms wraps,
    and a prime is answered [true]. *)
Lemma IsPrime_loop_complete_small (k : nat) :
  forall fuel i,
    Z.prime n -> n < 2147302921 ->
    3 <= i -> (i - 2) * (i - 2) <= n ->
    (Z.to_nat (n - i) <= k)%nat -> (k < fuel)%nat ->
    IsPrime_loop fuel n i = Some true.
Proof.
  induction k as [| k IH]; intros fuel i Hp Hn Hi Hprev Hk Hfuel;
    (destruct fuel as [| fuel]; [lia |]);
    cbn [IsPrime_loop];
    rewrite Int_mul_square_exact by nia;
    (destruct (Z.leb_spec (i * i) n) as [Hle | Hgt]; [| reflexivity]).
  - nia.
  - rewrite Int_rem_exact by (exact n_int || lia).
    assert (Hrem : Z.rem n i <> 0) by (apply prime_rem_nonzero; [easy | nia]).
    destruct (Z.eqb_spec (Z.rem n i) 0); [contradiction |].
    rewrite Int_add_exact by (unfold INT_MIN, INT_MAX; nia).
    apply IH; (assumption || lia).
Qed.

(** Completeness above: the squares wrap from candidate 46341 on, the
    loop goes on, and leaves with [true] at the latest at candidate
    593968971, whose wrapped square is 2147483641. *)
Lemma IsPrime_loop_complete_large (k : nat) :
  forall fuel i,
    Z.prime n -> 593968971 < n < 2147483641 ->
    3 <= i <= 593968971 -> i mod 2 = 1 ->
    (Z.to_nat (593968971 - i) <= k)%nat -> (k < fuel)%nat ->
    IsPrime_loop fuel n i = Some true.
Proof.
  assert (Hsq : Int.mul 593968971 593968971 = 2147483641) by reflexivity.
  induction k as [| k IH]; intros fuel i Hp Hn Hi Hodd Hk Hfuel;
    (destruct fuel as [| fuel]; [lia |]);
    rewrite IsPrime_loop_turn by (assumption || lia);
    (destruct (Z.leb_spec (Int.mul i i) n) as [Hle | Hgt]; [| reflexivity]);
    (assert (Hrem : Z.rem n i <> 0)
      by (apply prime_rem_nonzero; [easy | lia]));
    (destruct (Z.eqb_spec (Z.rem n i) 0); [contradiction |]);
    (assert (i <> 593968971) by (intros ->; rewrite Hsq in Hle; lia)).
  - lia.
  - pose proof (odd_next_le i 593968971 Hodd eq_refl (proj2 Hi) H).
    apply IH; try assumption; try lia.
    now apply odd_plus_2.
Qed.

End TrialDivision.

(** With [n = INT_MAX] the test [i * i <= n] can never fail, so the loop
    runs until the candidate is [n] itself and answers [false]. *)
Lemma IsPrime_loop_INT_MAX (k : nat) :
  forall fuel i,
    3 <= i <= INT_MAX -> i mod 2 = 1 ->
    (Z.to_nat (INT_MAX - i) <= k)%nat -> (k < fuel)%nat ->
    IsPrime_loop fuel INT_MAX i = Some false.
Proof.
  assert (Hrange : 3 <= INT_MAX <= INT_MAX) by (unfold INT_MAX; lia).
  assert (Hodd_max : INT_MAX mod 2 = 1) by reflexivity.
  induction k as [| k IH]; intros fuel i Hi Hodd Hk Hfuel;
    (destruct fuel as [| fuel]; [lia |]);
    rewrite (IsPrime_loop_turn INT_MAX Hrange Hodd_max) by assumption;
    pose proof (wrap32_range (i * i)) as [_ Hsq]; fold (Int.mul i i) in Hsq;
    (destruct (Z.leb_spec (Int.mul i i) INT_MAX) as [_ | Hgt]; [| lia]);
    (destruct (Z.eqb_spec (Z.rem INT_MAX i) 0) as [| Hrem]; [reflexivity |]);
    destruct (next_candidate INT_MAX Hrange Hodd_max i Hi Hodd Hrem)
      as [Hi' Hodd'].
  - lia.
  - apply IH; [exact Hi' | exact Hodd' | lia | lia].
Qed.

(** ** IsPrime: the function *)

Lemma IsPrime_fuel_mono (n : Z) (fuel extra : nat) (b : bool) :
  IsPrime_fuel n fuel = Some b -> IsPrime_fuel n (fuel + extra) = Some b.
Proof.
  unfold IsPrime_fuel.
  destruct (n <? 2); [trivial |]. destruct (n =? 2); [trivial |].
  destruct (Int.rem n 2 =? 0); [trivial |]. apply IsPrime_loop_mono.
Qed.

Lemma IsPrime_fuel_below_2 (n : Z) (fuel : nat) :
  n < 2 -> IsPrime_fuel n fuel = Some false.
Proof. intros Hn. unfold IsPrime_fuel. now destruct (Z.ltb_spec n 2); [| lia]. Qed.

Lemma IsPrime_fuel_2 (fuel : nat) : IsPrime_fuel 2 fuel = Some true.
Proof. reflexivity. Qed.

Lemma Int_rem_2 (n : Z) : 0 <= n <= INT_MAX -> Int.rem n 2 = n mod 2.
Proof.
  intros Hn. rewrite Int_rem_exact.
  - apply Z.rem_mod_nonneg; lia.
  - unfold in_int, INT_MIN, INT_MAX in *. lia.
  - lia.
Qed.

Lemma IsPrime_fuel_even (n : Z) (fuel : nat) :
  2 < n <= INT_MAX -> n mod 2 = 0 -> IsPrime_fuel n fuel = Some false.
Proof.
  intros Hn Heven. unfold IsPrime_fuel.
  destruct (Z.ltb_spec n 2); [lia |]. destruct (Z.eqb_spec n 2); [lia |].
  rewrite Int_rem_2, Heven by lia. reflexivity.
Qed.

Lemma IsPrime_fuel_odd (n : Z) (fuel : nat) :
  2 < n <= INT_MAX -> n mod 2 = 1 ->
  IsPrime_fuel n fuel = IsPrime_loop fuel n 3.
Proof.
  intros Hn Hodd. unfold IsPrime_fuel.
  destruct (Z.ltb_spec n 2); [lia |]. destruct (Z.eqb_spec n 2); [lia |].
  rewrite Int_rem_2, Hodd by lia. reflexivity.
Qed.

Lemma parity_cases (n : Z) : n mod 2 = 0 \/ n mod 2 = 1.
Proof. pose proof (Z.mod_pos_bound n 2). lia. Qed.

Lemma prime_odd (n : Z) : Z.prime n -> 2 < n -> n mod 2 = 1.
Proof.
  intros [_ Hp] Hn. destruct (parity_cases n) as [Heven | Hodd]; [| exact Hodd].
  exfalso. apply (Hp 2); [lia |].
  exists (n / 2). pose proof (Z.div_mod n 2). lia.
Qed.

(** A budget of [n] steps is enough for every [int] argument. *)
Lemma IsPrime_fuel_total (n : Z) (fuel : nat) :
  in_int n -> (Z.to_nat n <= fuel)%nat ->
  exists b, IsPrime_fuel n fuel = Some b.
Proof.
  intros [_ Hmax] Hfuel.
  destruct (Z.lt_ge_cases n 2) as [Hlt | Hge].
  - exists false. now apply IsPrime_fuel_below_2.
  - destruct (Z.eq_dec n 2) as [-> | Hne]; [now exists true |].
    destruct (parity_cases n) as [Heven | Hodd].
    + exists false. apply IsPrime_fuel_even; [lia | exact Heven].
    + rewrite IsPrime_fuel_odd by (lia || assumption).
      apply (IsPrime_loop_total n) with (k := Z.to_nat (n - 3));
        (assumption || reflexivity || lia).
Qed.

Lemma IsPrime_total (n : Z) : in_int n -> exists b, IsPrime n = Some b.
Proof. intros Hn. apply IsPrime_fuel_total; [exact Hn | lia]. Qed.

(** [true] is only answered for primes, on the whole [int] range. *)
Lemma IsPrime_fuel_sound (n : Z) (fuel : nat) :
  in_int n -> IsPrime_fuel n fuel = Some true -> Z.prime n.
Proof.
  intros [_ Hmax] Hrun.
  destruct (Z.lt_ge_cases n 2) as [Hlt | Hge].
  - rewrite IsPrime_fuel_below_2 in Hrun by exact Hlt. discriminate Hrun.
  - destruct (Z.eq_dec n 2) as [-> | Hne].
    + apply prime_by_trial; [lia |]. intros d Hd Hsq. nia.
    + destruct (parity_cases n) as [Heven | Hodd].
      * rewrite IsPrime_fuel_even in Hrun by (lia || assumption).
        discriminate Hrun.
      * rewrite IsPrime_fuel_odd in Hrun by (lia || assumption).
        apply (IsPrime_loop_sound n) with (fuel := fuel) (i := 3);
          try (assumption || reflexivity || lia).
        now apply no_divisor_below_3.
Qed.

(** Every prime [int] but [INT_MAX] is answered [true]. *)
Lemma IsPrime_fuel_complete (n : Z) (fuel : nat) :
  in_int n -> n <> INT_MAX -> (Z.to_nat n <= fuel)%nat ->
  Z.prime n -> IsPrime_fuel n fuel = Some true.
Proof.
  intros [_ Hmax] Hne Hfuel Hp. pose proof Hp as [Hgt1 _].
  destruct (Z.eq_dec n 2) as [-> | Hne2]; [reflexivity |].
  pose proof (prime_odd n Hp ltac:(lia)) as Hodd.
  rewrite IsPrime_fuel_odd by (lia || assumption).
  destruct (Z.lt_ge_cases n 2147302921) as [Hsmall | Hlarge].
  - apply (IsPrime_loop_complete_small n) with (k := Z.to_nat (n - 3));
      try (assumption || lia).
  - assert (Hn : n < 2147483641).
    { destruct (Z.lt_ge_cases n 2147483641) as [H | H]; [exact H |].
      exfalso. unfold INT_MAX in *.
      assert (Hc : n = 2147483641 \/ n = 2147483643 \/ n = 2147483645)
        by (pose proof (Z.div_mod n 2); lia).
      destruct Hp as [_ Hp].
      destruct Hc as [-> | [-> | ->] ].
      - apply (Hp 2699); [lia | now exists 795659].
      - apply (Hp 3); [lia | now exists 715827881].
      - apply (Hp 5); [lia | now exists 429496729]. }
    apply (IsPrime_loop_complete_large n)
      with (k := Z.to_nat (593968971 - 3));
      try (assumption || reflexivity || lia).
Qed.

Lemma IsPrime_fuel_INT_MAX (fuel : nat) :
  (Z.to_nat INT_MAX <= fuel)%nat -> IsPrime_fuel INT_MAX fuel = Some false.
Proof.
  intros Hfuel.
  rewrite IsPrime_fuel_odd by (reflexivity || (unfold INT_MAX; lia)).
  apply IsPrime_loop_INT_MAX with (k := Z.to_nat (INT_MAX - 3));
    try (reflexivity || lia).
  - unfold INT_MAX. lia.
  - unfold INT_MAX in *. lia.
Qed.

(** What [IsPrime] computes, on the whole [int] range but its last point:
    the policy of the four branches, and primality. *)
Lemma IsPrime_policy (n : Z) :
  in_int n ->
  (n < 2 -> IsPrime n = Some false) /\
  (n = 2 -> IsPrime n = Some true) /\
  (2 < n -> n mod 2 = 0 -> IsPrime n = Some false).
Proof.
  intros [_ Hmax]. repeat split.
  - intros Hn. now apply IsPrime_fuel_below_2.
  - now intros ->.
  - intros Hn Heven. apply IsPrime_fuel_even; [lia | exact Heven].
Qed.

Lemma IsPrime_correct_below_INT_MAX (n : Z) :
  in_int n -> n <> INT_MAX -> (IsPrime n = Some true <-> Z.prime n).
Proof.
  intros Hn Hne. split.
  - now apply IsPrime_fuel_sound.
  - apply IsPrime_fuel_complete; (assumption || lia).
Qed.

Lemma IsPrime_false_iff (n : Z) :
  in_int n -> n <> INT_MAX -> (IsPrime n = Some false <-> ~ Z.prime n).
Proof.
  intros Hn Hne. destruct (IsPrime_total n Hn) as [ [|] Hb]; rewrite Hb.
  - apply IsPrime_correct_below_INT_MAX in Hb; [| assumption | assumption].
    split; [discriminate | contradiction].
  - split; [| reflexivity]. intros _ Hp.
    apply IsPrime_correct_below_INT_MAX in Hp; [| assumption | assumption].
    congruence.
Qed.

(** The fourth branch in the words of the policy: for odd [n > 2] the
    answer is [true] exactly when no odd [d >= 3] with [d * d <= n]
    divides [n]. *)
Lemma IsPrime_odd_policy (n : Z) :
  in_int n -> n <> INT_MAX -> 2 < n -> n mod 2 = 1 ->
  (IsPrime n = Some true <->
   forall d, 3 <= d -> d mod 2 = 1 -> d * d <= n -> ~ (d | n)).
Proof.
  intros Hn Hne Hgt Hodd.
  rewrite (IsPrime_correct_below_INT_MAX n Hn Hne).
  symmetry. now apply odd_trial_iff_prime.
Qed.

(** C1 (the code departs from the claim). [INT_MAX = 2147483647] is a
    prime number, and [IsPrime] answers [false] for it: from candidate
    46341 on the square [i * i] exceeds [INT_MAX], its 32-bit value never
    exceeds [n = INT_MAX], and the loop only ends at [i = n], where
    [n % i == 0]. *)
Theorem IsPrime_INT_MAX_false :
  in_int INT_MAX /\ Z.prime INT_MAX /\ IsPrime INT_MAX = Some false.
Proof.
  split; [unfold in_int, INT_MIN, INT_MAX; lia |].
  split; [exact INT_MAX_prime |].
  apply IsPrime_fuel_INT_MAX. apply Nat.le_refl.
Qed.

(** ** Termination and the error contract *)

Lemma Factorial_returns_det (n : Z) (o o' : outcome Z) :
  returns (Factorial_fuel n) o -> returns (Factorial_fuel n) o' -> o = o'.
Proof.
  intros [f Hf] [f' Hf'].
  apply Factorial_fuel_mono with (extra := f') in Hf.
  apply Factorial_fuel_mono with (extra := f) in Hf'.
  rewrite Nat.add_comm in Hf'. congruence.
Qed.

Lemma Factorial_terminates_below_INT_MAX (n : Z) :
  in_int n -> n <> INT_MAX -> exists o, Factorial n = Some o.
Proof.
  intros [Hmin Hmax] Hne. destruct (Z.lt_ge_cases n 0) as [Hneg | Hpos].
  - unfold Factorial, Factorial_fuel.
    destruct (Z.ltb_spec n 0); [| lia]. eexists. reflexivity.
  - eexists. apply Factorial_value. lia.
Qed.

(** C5 (the code departs from the claim). [Factorial(INT_MAX)] does not
    terminate: the test [i <= n] holds for every [int] when
    [n = INT_MAX], and [++i] wraps from [INT_MAX] to [INT_MIN], so no
    number of steps is enough.  (All other calls terminate:
    [IsPrime_total], [Factorial_terminates_below_INT_MAX].) *)
Theorem Factorial_INT_MAX_diverges : diverges (Factorial_fuel INT_MAX).
Proof. intros fuel. apply Factorial_INT_MAX_None. Qed.

(** C2 (the code departs from the claim). [INT_MAX] is a valid,
    non-negative argument of [Factorial], yet the call produces no outcome
    at all, neither a value nor a failure.  (The rest of the contract
    holds: [Divide_throws_iff], [Factorial_throws_iff], [IsPrime_total].) *)
Theorem Factorial_INT_MAX_no_outcome :
  in_int INT_MAX /\ 0 <= INT_MAX /\
  forall o, ~ returns (Factorial_fuel INT_MAX) o.
Proof.
  split; [unfold in_int, INT_MIN, INT_MAX; lia |].
  split; [unfold INT_MAX; lia |].
  intros o [fuel H]. rewrite Factorial_INT_MAX_None in H. discriminate H.
Qed.

(** ** The value of Factorial *)

Lemma Factorial_congruent (n : Z) :
  0 <= n < INT_MAX ->
  exists v, Factorial n = Some (Return v) /\ in_llong v /\
            (v - Zfact n) mod 2 ^ 64 = 0.
Proof.
  intros Hn. exists (wrap64 (Zfact n)).
  split; [now apply Factorial_value | split; [apply wrap64_range |] ].
  destruct (wrap64_spec (Zfact n)) as [k ->].
  replace (Zfact n + k * 18446744073709551616 - Zfact n)
    with (k * 2 ^ 64) by (change (2 ^ 64) with 18446744073709551616; ring).
  apply Z.mod_mul. lia.
Qed.

(** C4 (the code departs from the claim). For [0 <= n < INT_MAX] the
    call returns [n!] reduced modulo [2^64] ([Factorial_value],
    [Factorial_congruent]); for the non-negative argument [INT_MAX] it
    returns nothing, in particular not the reduced product. *)
Theorem Factorial_INT_MAX_no_product :
  0 <= INT_MAX /\ Factorial INT_MAX = None /\
  ~ returns (Factorial_fuel INT_MAX) (Return (wrap64 (Zfact INT_MAX))).
Proof.
  split; [unfold INT_MAX; lia |].
  split; [apply Factorial_INT_MAX_None |].
  intros [fuel H]. rewrite Factorial_INT_MAX_None in H. discriminate H.
Qed.

Lemma Zfact_divide (k : nat) :
  forall m n, 0 <= m -> n = m + Z.of_nat k -> (Zfact m | Zfact n).
Proof.
  induction k as [| k IH]; intros m n Hm Hn.
  - replace n with m by lia. apply Z.divide_refl.
  - rewrite (Zfact_step n) by lia.
    apply Z.divide_mul_l. apply IH; lia.
Qed.

(** From 66 on the product is a multiple of [2^64]: 66! has 64 factors
    2. *)
Lemma Factorial_zero_from_66 (n : Z) :
  66 <= n < INT_MAX -> Factorial n = Some (Return 0).
Proof.
  intros Hn. rewrite Factorial_value by lia. do 2 f_equal.
  destruct (Zfact_divide (Z.to_nat (n - 66)) 66 n) as [q Hq]; [lia | lia |].
  assert (E : exists c, Zfact 66 = c * 18446744073709551616).
  { exists (Zfact 66 / 18446744073709551616). vm_compute. reflexivity. }
  destruct E as [c E]. rewrite Hq, E.
  replace (q * (c * 18446744073709551616))
    with (0 + (q * c) * 18446744073709551616) by ring.
  rewrite wrap64_shift. reflexivity.
Qed.

Example Factorial_65_nonzero : Factorial 65 = Some (Return LLONG_MIN).
Proof. vm_compute. reflexivity. Qed.

(** C10 (the code departs from the claim). For [66 <= n < INT_MAX] the
    call returns 0 ([Factorial_zero_from_66]); for [n = INT_MAX], which is
    above 66, it does not return 0, as it does not return. *)
Theorem Factorial_INT_MAX_not_zero :
  66 <= INT_MAX /\ ~ returns (Factorial_fuel INT_MAX) (Return 0).
Proof.
  split; [unfold INT_MAX; lia |].
  intros [fuel H]. rewrite Factorial_INT_MAX_None in H. discriminate H.
Qed.

(** C9. For every [n] with [0 <= n <= 20], [Factorial(n)] is the exact
    mathematical [n!]: nothing wraps, since [n! <= 20! < 2^63].  21 is the
    first argument whose result is not the factorial: [21!] exceeds
    [2^63] and the value returned is negative. *)
Theorem Factorial_exact_upto_20 (n : Z) :
  0 <= n <= 20 ->
  Factorial n = Some (Return (Zfact n)) /\
  Zfact n <= Zfact 20 /\ Zfact 20 < 2 ^ 63 /\
  2 ^ 63 <= Zfact 21 /\
  Factorial 21 = Some (Return (-4249290049419214848)) /\
  Factorial 21 <> Some (Return (Zfact 21)).
Proof.
  intros Hn.
  assert (Hcases : exists k, (k <= 20)%nat /\ n = Z.of_nat k)
    by (exists (Z.to_nat n); lia).
  destruct Hcases as (k & Hk & ->).
  split; [| split; [| split; [| split; [| split] ] ] ].
  - do 21 (destruct k as [| k]; [vm_compute; reflexivity |]). lia.
  - do 21 (destruct k as [| k]; [vm_compute; discriminate |]). lia.
  - vm_compute. reflexivity.
  - vm_compute. discriminate.
  - vm_compute. reflexivity.
  - vm_compute. discriminate.
Qed.

Lemma Factorial_exact_upto_20_witness :
  Factorial 20 = Some (Return 2432902008176640000) /\
  Zfact 20 = 2432902008176640000.
Proof.
  assert (H : 0 <= 20 <= 20) by lia.
  destruct (Factorial_exact_upto_20 20 H) as (E & _).
  split; [exact E | reflexivity].
Defined.

(** * Further properties of the arithmetic functions *)

Lemma wrap32_idem_iff (z : Z) : wrap32 z = z <-> in_int z.
Proof.
  split; [intros <-; apply wrap32_range | apply wrap32_id].
Qed.

Lemma wrap32_add_l (x y : Z) : wrap32 (wrap32 x + y) = wrap32 (x + y).
Proof.
  destruct (wrap32_spec x) as [k ->].
  replace (x + k * 4294967296 + y) with (x + y + k * 4294967296) by ring.
  apply wrap32_shift.
Qed.

Lemma wrap32_add_r (x y : Z) : wrap32 (x + wrap32 y) = wrap32 (x + y).
Proof. rewrite Z.add_comm, wrap32_add_l. f_equal. ring. Qed.

Lemma wrap32_mul_l (x y : Z) : wrap32 (wrap32 x * y) = wrap32 (x * y).
Proof.
  destruct (wrap32_spec x) as [k ->].
  replace ((x + k * 4294967296) * y) with (x * y + (k * y) * 4294967296)
    by ring.
  apply wrap32_shift.
Qed.

Lemma wrap32_mul_r (x y : Z) : wrap32 (x * wrap32 y) = wrap32 (x * y).
Proof. rewrite Z.mul_comm, wrap32_mul_l. f_equal. ring. Qed.

Lemma in_int_intro (z : Z) : -2147483648 <= z <= 2147483647 -> in_int z.
Proof. intros H. exact H. Qed.

(** X1. For 32-bit [a] and [b], [Add(a, b)] is the exact sum precisely
    when the sum is a 32-bit integer; otherwise it is off by [2^32]:
    too small after an overflow, too large after an underflow. *)
Theorem Add_exact_iff (a b : Z) :
  in_int a -> in_int b ->
  (Add a b = a + b <-> in_int (a + b)) /\
  (INT_MAX < a + b -> Add a b = a + b - 4294967296) /\
  (a + b < INT_MIN -> Add a b = a + b + 4294967296).
Proof.
  intros Ha Hb. unfold Add, Int.add.
  split; [apply wrap32_idem_iff |].
  unfold in_int, INT_MIN, INT_MAX in *. split; intros Hov.
  - rewrite <- (wrap32_shift (a + b) (-1)). apply wrap32_id.
    unfold in_int, INT_MIN, INT_MAX. lia.
  - rewrite <- (wrap32_shift (a + b) 1). apply wrap32_id.
    unfold in_int, INT_MIN, INT_MAX. lia.
Qed.

Lemma Add_exact_iff_witness :
  Add INT_MAX 1 = INT_MAX + 1 - 4294967296 /\ Add 2 3 = 2 + 3.
Proof.
  assert (Hmax : in_int INT_MAX) by (apply in_int_intro; unfold INT_MAX; lia).
  assert (H1 : in_int 1) by (apply in_int_intro; lia).
  assert (H2 : in_int 2) by (apply in_int_intro; lia).
  assert (H3 : in_int 3) by (apply in_int_intro; lia).
  split.
  - apply (proj1 (proj2 (Add_exact_iff INT_MAX 1 Hmax H1))).
    unfold INT_MAX. lia.
  - apply (proj1 (Add_exact_iff 2 3 H2 H3)). apply in_int_intro. lia.
Defined.

(** X2. [Add] is associative, also when intermediate sums wrap:
    [Add(Add(a, b), c) == Add(a, Add(b, c))]. *)
Theorem Add_assoc (a b c : Z) : Add (Add a b) c = Add a (Add b c).
Proof.
  unfold Add, Int.add. rewrite wrap32_add_l, wrap32_add_r.
  f_equal. ring.
Qed.

(** X3. Adding [b] back to a difference recovers the minuend:
    [Add(Subtract(a, b), b) == a] for every 32-bit [a], also when the
    difference wraps. *)
Theorem Add_Subtract_cancel (a b : Z) :
  in_int a -> Add (Subtract a b) b = a.
Proof.
  intros Ha. unfold Add, Subtract, Int.add, Int.sub.
  rewrite wrap32_add_l. replace (a - b + b) with a by ring.
  now apply wrap32_id.
Qed.

Lemma Add_Subtract_cancel_witness :
  Subtract INT_MIN 1 = INT_MAX /\ Add (Subtract INT_MIN 1) 1 = INT_MIN.
Proof.
  split; [reflexivity |].
  apply (Add_Subtract_cancel INT_MIN 1).
  apply in_int_intro. unfold INT_MIN. lia.
Defined.

(** X4. On 32-bit integers a difference is zero only for equal
    arguments: [Subtract(a, b) == 0] exactly when [a == b], wrap-around
    never produces a spurious zero. *)
Theorem Subtract_zero_iff (a b : Z) :
  in_int a -> in_int b -> (Subtract a b = 0 <-> a = b).
Proof.
  intros Ha Hb. unfold Subtract, Int.sub. split.
  - destruct (wrap32_spec (a - b)) as [k Hk]. rewrite Hk.
    unfold in_int, INT_MIN, INT_MAX in *. lia.
  - intros ->. now rewrite Z.sub_diag.
Qed.

Lemma Subtract_zero_iff_witness :
  (Subtract INT_MAX INT_MIN = 0 <-> INT_MAX = INT_MIN) /\
  Subtract INT_MAX INT_MIN = -1.
Proof.
  split; [| reflexivity].
  apply (Subtract_zero_iff INT_MAX INT_MIN); apply in_int_intro;
    unfold INT_MIN, INT_MAX; lia.
Defined.

(** X5. [Multiply] is associative, also when intermediate products wrap:
    [Multiply(Multiply(a, b), c) == Multiply(a, Multiply(b, c))]. *)
Theorem Multiply_assoc (a b c : Z) :
  Multiply (Multiply a b) c = Multiply a (Multiply b c).
Proof.
  unfold Multiply, Int.mul. rewrite wrap32_mul_l, wrap32_mul_r.
  f_equal. ring.
Qed.

(** X6. [Multiply] distributes over [Add] in 32-bit arithmetic:
    [Multiply(a, Add(b, c)) == Add(Multiply(a, b), Multiply(a, c))]. *)
Theorem Multiply_Add_distr (a b c : Z) :
  Multiply a (Add b c) = Add (Multiply a b) (Multiply a c).
Proof.
  unfold Multiply, Add, Int.mul, Int.add.
  rewrite wrap32_mul_r, wrap32_add_l, wrap32_add_r.
  f_equal. ring.
Qed.

(** X7. [Multiply(a, b)] is the exact product precisely when the product
    is a 32-bit integer; in any case it differs from the product by a
    multiple of [2^32] and is a 32-bit integer. *)
Theorem Multiply_exact_iff (a b : Z) :
  (Multiply a b = a * b <-> in_int (a * b)) /\
  in_int (Multiply a b) /\
  exists k, Multiply a b = a * b + k * 4294967296.
Proof.
  unfold Multiply, Int.mul.
  split; [apply wrap32_idem_iff |].
  split; [apply wrap32_range | apply wrap32_spec].
Qed.

(** X8. Dividing a product by one of its factors gives the other factor
    back, [Divide(Multiply(a, b), b) == a], for 32-bit [a] and [b] with
    [b != 0] whose product does not overflow. *)
Theorem Divide_Multiply_cancel (a b : Z) :
  in_int a -> in_int b -> b <> 0 -> in_int (a * b) ->
  Divide (Multiply a b) b = Return a.
Proof.
  intros Ha Hb Hb0 Hab. unfold Multiply, Int.mul.
  rewrite (wrap32_id _ Hab).
  rewrite Divide_returns; rewrite ?Z.quot_mul by exact Hb0;
    (reflexivity || assumption).
Qed.

Lemma Divide_Multiply_cancel_witness :
  Divide (Multiply (-46341) 46340) 46340 = Return (-46341).
Proof.
  apply (Divide_Multiply_cancel (-46341) 46340);
    try (apply in_int_intro; lia); lia.
Defined.

(** The hypothesis on the product is needed: after an overflow the
    factor is lost. *)
Example Divide_Multiply_overflow :
  Multiply 65536 65536 = 0 /\ Divide (Multiply 65536 65536) 65536 = Return 0.
Proof. split; reflexivity. Qed.

(** X9. For 32-bit [a] and [b] with [b != 0], [Divide(a, b)] is zero
    exactly when the dividend is smaller in magnitude than the divisor. *)
Theorem Divide_zero_iff (a b : Z) :
  in_int a -> in_int b -> b <> 0 ->
  (Divide a b = Return 0 <-> Z.abs a < Z.abs b).
Proof.
  intros Ha Hb Hb0.
  destruct (Z.eq_dec a INT_MIN) as [Ea | Na];
    [destruct (Z.eq_dec b (-1)) as [Eb | Nb] |].
  - subst a b. split; [discriminate | unfold INT_MIN; lia].
  - rewrite Divide_returns
      by (try apply quot_in_int; try assumption; tauto).
    rewrite <- Z.quot_small_iff by exact Hb0.
    split; [now intros [= ->] | now intros ->].
  - rewrite Divide_returns
      by (try apply quot_in_int; try assumption; tauto).
    rewrite <- Z.quot_small_iff by exact Hb0.
    split; [now intros [= ->] | now intros ->].
Qed.

Lemma Divide_zero_iff_witness :
  Divide (-3) 4 = Return 0 /\ Divide 4 (-3) = Return (-1).
Proof.
  split; [| reflexivity].
  apply (Divide_zero_iff (-3) 4); try (apply in_int_intro; lia); lia.
Defined.

(** X10. Truncation is symmetric in the sign of the dividend:
    [Divide(-a, b) == -Divide(a, b)] for 32-bit [a] and [b] with
    [b != 0] and [a != INT_MIN] (whose negation is not a 32-bit
    integer); both sides are exact, nothing wraps. *)
Theorem Divide_neg_dividend (a b : Z) :
  in_int a -> a <> INT_MIN -> in_int b -> b <> 0 ->
  Int.neg a = - a /\
  Divide (Int.neg a) b = Return (- Z.quot a b) /\
  Divide a b = Return (Z.quot a b) /\
  Int.neg (Z.quot a b) = - Z.quot a b.
Proof.
  intros Ha Hmin Hb Hb0.
  assert (Hna : in_int (- a))
    by (unfold in_int, INT_MIN, INT_MAX in *; lia).
  assert (Hq : in_int (Z.quot a b))
    by (apply quot_in_int; try assumption; tauto).
  assert (Hnq : in_int (Z.quot (- a) b)).
  { apply quot_in_int; try assumption.
    unfold in_int, INT_MIN, INT_MAX in *. lia. }
  rewrite Z.quot_opp_l in Hnq by exact Hb0.
  unfold Int.neg. rewrite (wrap32_id _ Hna), (wrap32_id _ Hnq).
  rewrite (Divide_returns a b Hb0 Hq).
  rewrite (Divide_returns (- a) b Hb0)
    by (rewrite Z.quot_opp_l by exact Hb0; exact Hnq).
  rewrite Z.quot_opp_l by exact Hb0. repeat split.
Qed.

Lemma Divide_neg_dividend_witness :
  Divide (Int.neg 7) 2 = Return (-3) /\ Divide 7 2 = Return 3.
Proof.
  assert (H7 : in_int 7) by (apply in_int_intro; lia).
  assert (H2 : in_int 2) by (apply in_int_intro; lia).
  assert (Hm : 7 <> INT_MIN) by (unfold INT_MIN; lia).
  assert (H0 : 2 <> 0) by lia.
  destruct (Divide_neg_dividend 7 2 H7 Hm H2 H0) as (_ & E1 & E2 & _).
  split; [exact E1 | exact E2].
Defined.

(** X11. The neutral cases of [Divide] on 32-bit integers: dividing by 1
    returns the dividend, dividing a non-zero number by itself returns 1,
    and dividing 0 by a non-zero number returns 0. *)
Theorem Divide_neutral (a : Z) :
  in_int a ->
  Divide a 1 = Return a /\
  (a <> 0 -> Divide a a = Return 1 /\ Divide 0 a = Return 0).
Proof.
  intros Ha. split.
  - rewrite Divide_returns; rewrite ?Z.quot_1_r; (reflexivity || lia || assumption).
  - intros Ha0. split.
    + rewrite Divide_returns; rewrite ?Z.quot_same by exact Ha0;
        (reflexivity || assumption || (apply in_int_intro; lia)).
    + rewrite Divide_returns; rewrite ?Z.quot_0_l by exact Ha0;
        (reflexivity || assumption || (apply in_int_intro; lia)).
Qed.

Lemma Divide_neutral_witness :
  Divide INT_MIN 1 = Return INT_MIN /\ Divide INT_MIN INT_MIN = Return 1.
Proof.
  assert (H : in_int INT_MIN) by (apply in_int_intro; unfold INT_MIN; lia).
  assert (H0 : INT_MIN <> 0) by (unfold INT_MIN; lia).
  destruct (Divide_neutral INT_MIN H) as [E1 E2].
  split; [exact E1 | exact (proj1 (E2 H0))].
Defined.

(** X12. [add_numbers] of the Emscripten sample, on 32-bit arguments: it
    is exact when the arguments have opposite signs; for two non-negative
    arguments the result is negative exactly when the sum overflows, and
    for two negative arguments it is non-negative exactly when the sum
    underflows. *)
Theorem add_numbers_overflow_sign (a b : Z) :
  in_int a -> in_int b ->
  ((a <= 0 <= b \/ b <= 0 <= a) -> add_numbers a b = a + b) /\
  (0 <= a -> 0 <= b -> (add_numbers a b < 0 <-> INT_MAX < a + b)) /\
  (a < 0 -> b < 0 -> (0 <= add_numbers a b <-> a + b < INT_MIN)).
Proof.
  intros Ha Hb. unfold add_numbers, Int.add.
  pose proof (wrap32_range (a + b)) as Hr.
  destruct (wrap32_spec (a + b)) as [k Hk].
  unfold in_int, INT_MIN, INT_MAX in *.
  repeat split; intros; lia.
Qed.

Lemma add_numbers_overflow_sign_witness :
  add_numbers (-5) 7 = 2 /\
  (add_numbers INT_MAX 1 < 0 <-> INT_MAX < INT_MAX + 1).
Proof.
  assert (H5 : in_int (-5)) by (apply in_int_intro; lia).
  assert (H7 : in_int 7) by (apply in_int_intro; lia).
  assert (Hm : in_int INT_MAX) by (apply in_int_intro; unfold INT_MAX; lia).
  assert (H1 : in_int 1) by (apply in_int_intro; lia).
  split.
  - apply (proj1 (add_numbers_overflow_sign (-5) 7 H5 H7)). lia.
  - apply (proj1 (proj2 (add_numbers_overflow_sign INT_MAX 1 Hm H1)));
      unfold INT_MAX; lia.
Defined.

(** * Further properties of IsPrime *)

(** X13. [IsPrime] has no false positives on the whole 32-bit range:
    whenever it returns [true], with whatever number of loop turns, the
    argument is a prime number, also where the squares [i * i] wrap. *)
Theorem IsPrime_no_false_positive (n : Z) :
  in_int n -> returns (IsPrime_fuel n) true -> Z.prime n.
Proof.
  intros Hn [fuel Hrun]. exact (IsPrime_fuel_sound n fuel Hn Hrun).
Qed.

Lemma IsPrime_no_false_positive_witness : Z.prime 46349.
Proof.
  apply (IsPrime_no_false_positive 46349).
  - apply in_int_intro. lia.
  - exists (Z.to_nat 46349). vm_compute. reflexivity.
Defined.

(** X14. [INT_MAX] is the only 32-bit argument for which [IsPrime] is
    wrong: for every other [n] it returns [true] exactly when [n] is
    prime and [false] exactly when [n] is not prime. *)
Theorem IsPrime_exact_except_INT_MAX (n : Z) :
  in_int n -> n <> INT_MAX ->
  (IsPrime n = Some true <-> Z.prime n) /\
  (IsPrime n = Some false <-> ~ Z.prime n).
Proof.
  intros Hn Hne. split.
  - now apply IsPrime_correct_below_INT_MAX.
  - now apply IsPrime_false_iff.
Qed.

Lemma IsPrime_exact_except_INT_MAX_witness :
  (IsPrime 2147483629 = Some true <-> Z.prime 2147483629) /\
  (IsPrime 2147483629 = Some false <-> ~ Z.prime 2147483629).
Proof.
  apply (IsPrime_exact_except_INT_MAX 2147483629).
  - apply in_int_intro. lia.
  - unfold INT_MAX. lia.
Defined.

(** X15. [IsPrime] terminates on every 32-bit argument: [n] turns of the
    loop are always enough, and any larger budget gives the same
    answer. *)
Theorem IsPrime_terminates (n : Z) :
  in_int n ->
  exists b, IsPrime n = Some b /\
            forall fuel, (Z.to_nat n <= fuel)%nat ->
                         IsPrime_fuel n fuel = Some b.
Proof.
  intros Hn. destruct (IsPrime_total n Hn) as [b Hb].
  exists b. split; [exact Hb |].
  intros fuel Hfuel.
  replace fuel with (Z.to_nat n + (fuel - Z.to_nat n))%nat by lia.
  now apply IsPrime_fuel_mono.
Qed.

Lemma IsPrime_terminates_witness :
  exists b, IsPrime 2147483646 = Some b /\
            forall fuel, (Z.to_nat 2147483646 <= fuel)%nat ->
                         IsPrime_fuel 2147483646 fuel = Some b.
Proof.
  apply (IsPrime_terminates 2147483646). apply in_int_intro. lia.
Defined.

Lemma IsPrime_loop_sqrt_budget (k : nat) :
  forall fuel n i,
    in_int n -> n < 2147302921 ->
    3 <= i -> (i - 2) * (i - 2) <= n ->
    Z.sqrt n + 2 - i <= 2 * Z.of_nat k -> (k < fuel)%nat ->
    exists b, IsPrime_loop fuel n i = Some b.
Proof.
  induction k as [| k IH]; intros fuel n i Hn Hbound Hi Hprev Hk Hfuel;
    (destruct fuel as [| fuel]; [lia |]);
    cbn [IsPrime_loop];
    rewrite Int_mul_square_exact by nia;
    (destruct (Z.leb_spec (i * i) n) as [Hle | Hgt]; [| now exists true]);
    (assert (Hs : i <= Z.sqrt n) by (apply Z.sqrt_le_square; lia)).
  - lia.
  - rewrite Int_rem_exact by (assumption || lia).
    destruct (Z.eqb_spec (Z.rem n i) 0); [now exists false |].
    rewrite Int_add_exact by (unfold INT_MIN, INT_MAX; nia).
    apply IH; (assumption || lia).
Qed.

(** X16. Below [46339 * 46339 = 2147302921], where no square wraps, the
    trial division needs at most [sqrt(n) / 2 + 1] turns of the loop: that
    budget already gives the answer of [IsPrime]. *)
Theorem IsPrime_sqrt_turns (n : Z) :
  in_int n -> n < 2147302921 ->
  exists b, IsPrime_fuel n (Z.to_nat (Z.sqrt n / 2 + 1)) = Some b /\
            IsPrime n = Some b.
Proof.
  intros Hn Hbound.
  assert (Hrun : exists b,
             IsPrime_fuel n (Z.to_nat (Z.sqrt n / 2 + 1)) = Some b).
  { destruct (Z.lt_ge_cases n 2) as [Hlt | Hge].
    - exists false. now apply IsPrime_fuel_below_2.
    - destruct (Z.eq_dec n 2) as [-> | Hne]; [now exists true |].
      assert (Hmax : n <= INT_MAX) by apply Hn.
      destruct (parity_cases n) as [Heven | Hodd].
      + exists false. apply IsPrime_fuel_even; [lia | exact Heven].
      + rewrite IsPrime_fuel_odd by (lia || assumption).
        pose proof (Z.sqrt_nonneg n) as Hs0.
        pose proof (Z.div_mod (Z.sqrt n) 2 ltac:(lia)) as Hdm.
        pose proof (Z.mod_pos_bound (Z.sqrt n) 2 ltac:(lia)) as Hmb.
        apply (IsPrime_loop_sqrt_budget (Z.to_nat (Z.sqrt n / 2)));
          try assumption; lia. }
  destruct Hrun as [b Hb]. exists b. split; [exact Hb |].
  destruct (IsPrime_total n Hn) as [b' Hb'].
  pose proof (IsPrime_fuel_mono _ _ (Z.to_nat n) _ Hb) as H1.
  pose proof (IsPrime_fuel_mono _ _ (Z.to_nat (Z.sqrt n / 2 + 1)) _ Hb') as H2.
  rewrite Nat.add_comm in H2. unfold IsPrime in *. congruence.
Qed.

Lemma IsPrime_sqrt_turns_witness :
  exists b, IsPrime_fuel 1000003 (Z.to_nat (Z.sqrt 1000003 / 2 + 1)) = Some b /\
            IsPrime 1000003 = Some b.
Proof.
  apply (IsPrime_sqrt_turns 1000003); [apply in_int_intro |]; lia.
Defined.

(** * Further properties of Factorial *)

(** X17. The outcome of [Factorial] on every 32-bit argument but
    [INT_MAX]: the [invalid_argument] failure for [n < 0], and otherwise
    the value [n!] reduced to 64 bits, reached within [n] loop turns. *)
Theorem Factorial_outcome (n : Z) :
  in_int n -> n <> INT_MAX ->
  Factorial n
  = Some (if n <? 0
          then Throw (invalid_argument
                        "Factorial is not defined for negative numbers")
          else Return (wrap64 (Zfact n))).
Proof.
  intros [_ Hmax] Hne. destruct (Z.ltb_spec n 0) as [Hneg | Hpos].
  - unfold Factorial, Factorial_fuel.
    now destruct (Z.ltb_spec n 0); [| lia].
  - apply Factorial_value. lia.
Qed.

Lemma Factorial_outcome_witness :
  Factorial 25 = Some (Return (wrap64 (Zfact 25))) /\
  wrap64 (Zfact 25) = 7034535277573963776.
Proof.
  split; [| vm_compute; reflexivity].
  apply (Factorial_outcome 25); [apply in_int_intro | unfold INT_MAX]; lia.
Defined.

(** X18. The recurrence of the factorial holds in 64-bit arithmetic, also
    after the values have wrapped: for [1 <= n < INT_MAX],
    [Factorial(n) == Factorial(n - 1) * n] with the [long long]
    product. *)
Theorem Factorial_recurrence (n : Z) :
  1 <= n < INT_MAX ->
  exists p, Factorial (n - 1) = Some (Return p) /\
            Factorial n = Some (Return (LongLong.mul p n)).
Proof.
  intros Hn. exists (wrap64 (Zfact (n - 1))).
  split; [apply Factorial_value; lia |].
  rewrite Factorial_value by lia.
  unfold LongLong.mul. rewrite wrap64_mul_l.
  now rewrite <- Zfact_step by lia.
Qed.

Lemma Factorial_recurrence_witness :
  exists p, Factorial (30 - 1) = Some (Return p) /\
            Factorial 30 = Some (Return (LongLong.mul p 30)).
Proof.
  apply (Factorial_recurrence 30). unfold INT_MAX. lia.
Defined.

(** X19. Below [INT_MAX], [Factorial(n)] is 0 exactly from [n = 66] on:
    no smaller argument gives 0. *)
Theorem Factorial_zero_iff (n : Z) :
  0 <= n < INT_MAX -> (Factorial n = Some (Return 0) <-> 66 <= n).
Proof.
  intros Hn. split.
  - intros Hzero. destruct (Z.le_gt_cases 66 n) as [H | H]; [exact H |].
    exfalso.
    assert (Hcases : exists k, (k <= 65)%nat /\ n = Z.of_nat k)
      by (exists (Z.to_nat n); lia).
    destruct Hcases as (k & Hk & ->). revert Hzero.
    do 66 (destruct k as [| k]; [vm_compute; discriminate |]). lia.
  - intros H66. apply Factorial_zero_from_66. lia.
Qed.

Lemma Factorial_zero_iff_witness :
  Factorial 1000 = Some (Return 0) <-> 66 <= 1000.
Proof. apply (Factorial_zero_iff 1000). unfold INT_MAX. lia. Defined.

Lemma Factorial_loop_starved (fuel : nat) :
  forall n i r,
    n < INT_MAX -> 2 <= i -> Z.of_nat fuel <= n + 1 - i ->
    Factorial_loop fuel n i r = None.
Proof.
  induction fuel as [| fuel IH]; intros n i r Hn Hi Hfuel; [reflexivity |].
  cbn [Factorial_loop]. destruct (Z.leb_spec i n); [| lia].
  rewrite Int_add_exact by (unfold INT_MIN, INT_MAX in *; lia).
  apply IH; lia.
Qed.

(** X20. For [2 <= n < INT_MAX] the loop of [Factorial] takes exactly [n]
    evaluations of its test ([n - 1] multiplications and the exit): a
    budget below [n] gives no result, any budget from [n] on gives the
    value. *)
Theorem Factorial_turns_exact (n : Z) (fuel : nat) :
  2 <= n < INT_MAX ->
  (Factorial_fuel n fuel = None <-> (fuel < Z.to_nat n)%nat) /\
  ((Z.to_nat n <= fuel)%nat ->
   Factorial_fuel n fuel = Some (Return (wrap64 (Zfact n)))).
Proof.
  intros Hn. split; [split |].
  - intros Hnone. destruct (Nat.lt_ge_cases fuel (Z.to_nat n)) as [H | H];
      [exact H |].
    rewrite Factorial_fuel_enough in Hnone by lia. discriminate Hnone.
  - intros Hlt. unfold Factorial_fuel.
    destruct (Z.ltb_spec n 0); [lia |].
    destruct (Z.eqb_spec n 0); [lia |]. destruct (Z.eqb_spec n 1); [lia |].
    cbn [orb]. rewrite Factorial_loop_starved; [reflexivity | lia | lia | lia].
  - intros Hge. apply Factorial_fuel_enough; lia.
Qed.

Lemma Factorial_turns_exact_witness :
  Factorial_fuel 10 9 = None /\ Factorial_fuel 10 10 = Some (Return 3628800).
Proof.
  assert (H : 2 <= 10 < INT_MAX) by (unfold INT_MAX; lia).
  split.
  - apply (proj1 (Factorial_turns_exact 10 9 H)). apply Nat.lt_succ_diag_r.
  - rewrite (proj2 (Factorial_turns_exact 10 10 H) (Nat.le_refl _)).
    vm_compute. reflexivity.
Defined.

(** * The greeting of the Emscripten sample *)

Lemma string_length_app (s t : string) :
  String.length (s ++ t) = (String.length s + String.length t)%nat.
Proof. induction s as [| c s IH]; cbn; [reflexivity | now rewrite IH]. Qed.

Lemma string_app_assoc (a b c : string) :
  ((a ++ b) ++ c = a ++ b ++ c)%string.
Proof. induction a as [| x a IH]; cbn; [reflexivity | now rewrite IH]. Qed.

Lemma string_app_inv_head (s a b : string) :
  (s ++ a = s ++ b)%string -> a = b.
Proof.
  induction s as [| c s IH]; cbn; intros H; [exact H |].
  injection H as H. now apply IH.
Qed.

Lemma string_app_inv_tail (t : string) :
  forall a b : string, (a ++ t = b ++ t)%string -> a = b.
Proof.
  induction a as [| c a IH]; intros [| d b] H; cbn in H.
  - reflexivity.
  - apply (f_equal String.length) in H. cbn in H.
    rewrite string_length_app in H. lia.
  - apply (f_equal String.length) in H. cbn in H.
    rewrite string_length_app in H. lia.
  - injection H as -> H. f_equal. now apply IH.
Qed.

(** X21. [say_hello] only appends to the output: what was written before
    stays in front, and the text added is exactly ["Hello "], the name,
    [" from C++!"] and the newline, 17 characters besides the name; two
    different names never give the same output. *)
Theorem say_hello_appends_injective (name name' cout : string) :
  say_hello name cout
  = (cout ++ ("Hello " ++ name ++ " from C++!") ++ endl)%string /\
  String.length (say_hello name cout)
  = (String.length cout + String.length name + 17)%nat /\
  (name <> name' -> say_hello name cout <> say_hello name' cout).
Proof.
  unfold say_hello. split; [| split].
  - now rewrite !string_app_assoc.
  - rewrite !string_length_app. cbn. lia.
  - intros Hne H. apply Hne.
    apply string_app_inv_head in H. apply string_app_inv_head in H.
    now apply string_app_inv_tail in H.
Qed.

Lemma say_hello_appends_injective_witness :
  String.length (say_hello "Ada" "ready ") = 26%nat /\
  say_hello "Ada" "ready " <> say_hello "Bob" "ready ".
Proof.
  assert (Hne : "Ada"%string <> "Bob"%string) by discriminate.
  destruct (say_hello_appends_injective "Ada" "Bob" "ready ")
    as (_ & Hlen & Hinj).
  split; [exact Hlen | exact (Hinj Hne)].
Defined.

(** The text of the line, on an empty stream. *)
Example say_hello_Ada :
  say_hello "Ada" "" = ("Hello Ada from C++!" ++ endl)%string.
Proof. reflexivity. Qed.
